(** * text-correction-utils: beam search, continuation constraints, loader setup

    A shallow embedding of

    - [text_utils/inference/__init__.py]  ([beam_search] with its two
      closures [filter_beams] and [get_outputs]),
    - [text_utils/constraints.py]          ([ContinuationConstraint]),
    - [text_utils/api/processor.py]        ([TextProcessor._get_loader]),

    and the properties of the design document that concern them.

    Conventions.  Python [int] is [Z]; a Python [float] is read as an exact
    rational ([Q]): no rounding, no infinities, no NaN.  A Python callable
    that may keep state of its own or draw random numbers is a function in
    the monad [M] below, which threads a hidden world [W] and may raise. *)

From Stdlib Require Import ZArith QArith Qpower Lia.
From stdpp Require Import base option list sorting gmap strings.

Local Open Scope Z_scope.

(** ** Python list primitives *)

Module Py.

(** [l[:k]]: the first [k] elements, and for a negative [k] all but the
    last [-k]. *)
Definition slice_to {A} (k : Z) (l : list A) : list A :=
  if (0 <=? k)%Z then take (Z.to_nat k) l
  else take (length l - Z.to_nat (- k)) l.

(** [l[i]]: negative indices count from the end; out of range raises
    (here: [None]). *)
Definition index {A} (l : list A) (i : Z) : option A :=
  if (0 <=? i)%Z then l !! Z.to_nat i
  else if (- Z.of_nat (length l) <=? i)%Z
       then l !! (length l - Z.to_nat (- i))%nat
       else None.

(** [sorted(l, key=key, reverse=True)].  Python's sort is stable, and
    [reverse=True] keeps elements with equal keys in their original
    order.  A stable sort has only one possible result, computed here by
    insertion from the right: [x] is put in front of the first element
    whose key is not greater than its own. *)
Fixpoint insert_desc {A} (key : A -> Q) (x : A) (l : list A) : list A :=
  match l with
  | [] => [x]
  | y :: l' =>
      if Qle_bool (key y) (key x) then x :: y :: l'
      else y :: insert_desc key x l'
  end.

Fixpoint sorted_desc {A} (key : A -> Q) (l : list A) : list A :=
  match l with
  | [] => []
  | x :: l' => insert_desc key x (sorted_desc key l')
  end.

(** [sum(l)] over floats: a left fold from [0]. *)
Definition sum (l : list Q) : Q := foldl Qplus 0%Q l.

(** [[x] * n] followed by [extend]: [n] copies of [x]. *)
Definition repeat_idx (idx n : nat) : list nat := replicate n idx.

End Py.

(** ** Beams *)

Section Beams.

(** The optional side state of a beam is opaque to the engine. *)
Variable Extra : Type.

(** Modelled from the spec: [text_utils/inference/utils.py] (the [Beam]
    class) is not among the sources.  A beam is its token ids, the
    parallel per-token log-probabilities and an optional opaque side
    state; [log_prob] is the sum of the per-token values and [len(beam)]
    the number of tokens. *)
Record Beam := mkBeam {
  token_ids : list Z;
  log_probs : list Q;
  extra : option Extra
}.

Definition log_prob (b : Beam) : Q := Py.sum (log_probs b).
Definition beam_len (b : Beam) : nat := length (token_ids b).

(** Modelled from the spec: [log_likelihood_score] of
    [text_utils/inference/utils.py] is not among the sources.  The score
    is [log_prob / len(beam)^alpha] when normalisation is enabled and
    the raw [log_prob] otherwise; the exponent is taken integral. *)
Definition log_likelihood_score
    (normalize_by_length : bool) (alpha : Z) (b : Beam) : Q :=
  if normalize_by_length
  then (log_prob b / Qpower (inject_Z (Z.of_nat (beam_len b))) alpha)%Q
  else log_prob b.

End Beams.

Arguments mkBeam {Extra} _ _ _.
Arguments token_ids {Extra} _.
Arguments log_probs {Extra} _.
Arguments extra {Extra} _.
Arguments log_prob {Extra} _.
Arguments beam_len {Extra} _.
Arguments log_likelihood_score {Extra} _ _ _.

(** ** Callables with effects

    [M W A] is a computation that reads and updates the hidden world [W]
    of the injected callables (random generators, caches, counters) and
    either returns a value or raises ([None]). *)

Definition M (W A : Type) : Type := W -> option (A * W).

Definition ret {W A} (a : A) : M W A := fun w => Some (a, w).

Definition bind {W A B} (c : M W A) (k : A -> M W B) : M W B :=
  fun w => match c w with
           | Some (a, w') => k a w'
           | None => None
           end.

Definition raise {W A} : M W A := fun _ => None.

Definition lift_option {W A} (o : option A) : M W A :=
  match o with
  | Some a => ret a
  | None => raise
  end.

Notation "x <- c1 ;; c2" := (bind c1 (fun x => c2))
  (at level 100, c1 at next level, right associativity).

(** A [for] loop that collects one result per element. *)
Fixpoint for_each {W A B} (f : A -> M W B) (l : list A) : M W (list B) :=
  match l with
  | [] => ret []
  | x :: l' => y <- f x ;; ys <- for_each f l' ;; ret (y :: ys)
  end.

(** ** Tensors

    A row of scores over the vocabulary is a list of numbers; the decoder
    output of shape [(b, s, vocabulary)] is a list of [b] lists of [s]
    rows. *)

Definition Row : Type := list Q.

Module Torch.

(** [rnn.pad_sequence(seqs, batch_first=True, padding_value=pad)]. *)
Definition pad_sequence (seqs : list (list Z)) (pad : Z) : list (list Z) :=
  let width := foldr Nat.max 0%nat (map length seqs) in
  map (fun s => s ++ replicate (width - length s) pad) seqs.

(** [torch.split(rows, sizes)]: consecutive chunks of the given sizes;
    raises unless the sizes add up to the number of rows. *)
Fixpoint split {A} (rows : list A) (sizes : list nat) : option (list (list A)) :=
  match sizes with
  | [] => match rows with [] => Some [] | _ :: _ => None end
  | n :: sizes' =>
      if decide (n <= length rows)%nat
      then cons (take n rows) <$> split (drop n rows) sizes'
      else None
  end.

(** The rows of the next step, lines 162 to 169: with [s == 1] the only
    position, otherwise the position [length - 1] of each sequence (an
    index into its [s] positions, negative ones counting from the end).
    The row numbers [arange(b)] and the lengths are broadcast against
    each other when one of the two has a single element. *)
Definition last_row (o : list Row) (n : nat) : option Row :=
  Py.index o (Z.of_nat n - 1).

Definition next_step (outputs : list (list Row)) (lengths : list nat)
  : option (list Row) :=
  let s := match outputs with o :: _ => length o | [] => 0%nat end in
  if decide (s = 1)%nat
  then mapM (fun o => o !! 0%nat) outputs
  else if decide (length outputs = length lengths)
       then mapM (fun '(o, n) => last_row o n) (zip outputs lengths)
       else match outputs, lengths with
            | [o], _ => mapM (last_row o) lengths
            | _, [n] => mapM (fun o => last_row o n) outputs
            | _, _ => None
            end.

End Torch.

(** ** The beam search engine, [text_utils/inference/__init__.py] *)

Section Engine.

Variables W Aux Info Sel Extra : Type.

Local Abbreviation Beam := (Beam Extra).

(** One entry of [initial]: a [Beam], a list of token ids, a list of
    beams, or a non-empty list that starts with something else. *)
Inductive Initial :=
| InitBeam (b : Beam)
| InitTokens (ids : list Z)
| InitBeams (bs : list Beam)
| InitOther.

(** The callables handed to [beam_search].  [kwargs_select_fn] and
    [kwargs_update_fn] act on the keyword state [Aux] of the call; the
    decoder receives the padded token ids, the selected keyword
    arguments (none: the empty dictionary) and the lengths. *)
Record Callables := {
  decode_fn : list (list Z) -> option Sel -> list nat ->
              M W (list (list Row) * Info);
  stop_fn : Beam -> bool;
  sample_fn : Row -> Z -> M W (list Z);
  candidate_fn : Beam -> Z -> Q -> M W (option Beam);
  score_fn : Beam -> Q;
  logit_fns : option (list (list (list Z) -> list Row -> list Beam -> list Row));
  kwargs_select_fn : option (Aux -> list nat -> Sel);
  kwargs_update_fn : option (Aux -> Info -> list nat -> Aux)
}.

(** The variables the two closures and the loop share. *)
Record State := {
  current_beams : list (list Beam);
  beam_queues : list (list Beam);
  update_info : list nat;
  decoder_info : option Info;
  kwargs : Aux
}.

(** What a consumer of the generator observes: the elements yielded, the
    number of rounds (executions of the loop body) started, and how the
    iteration ended. *)
Inductive Outcome := Exhausted | Raised | OutOfFuel.

Record Run := {
  yielded : list (list (list Beam));
  rounds : nat;
  outcome : Outcome
}.

(** [torch.log_softmax(_, dim=-1)] on one row. *)
Variable log_softmax : Row -> Row.

Variable fns : Callables.
Variables pad_token_id max_length : Z.
Variable normalize_by_length : bool.
Variable alpha : Z.
Variable beam_width : Z.
Variables return_incomplete yield_intermediate : bool.

(** Line 45: the name [score_fn] is bound anew, whatever was passed. *)
Definition score : Beam -> Q := log_likelihood_score normalize_by_length alpha.

(** Lines 51 to 65. *)
Definition initial_beams (init : Initial) : option (list Beam) :=
  match init with
  | InitBeam b => Some [b]
  | InitTokens [] => Some []
  | InitTokens ids => Some [mkBeam ids (replicate (length ids) 0%Q) None]
  | InitBeams bs => Some bs
  | InitOther => None
  end.

Definition initial_state (groups : list (list Beam)) (kw : Aux) : State :=
  {| current_beams := groups;
     beam_queues := map (fun _ => []) groups;
     update_info := map length groups;
     decoder_info := None;
     kwargs := kw |}.

(** Lines 67 to 82.  The iterations of the loop over [idx] touch only
    the entries [idx] of the lists, so they are written as one pass. *)
Definition stops (beam : Beam) : bool :=
  stop_fn fns beam || (max_length <=? Z.of_nat (beam_len beam))%Z.

Definition group_finished (current queue : list Beam) : bool :=
  (length current =? 0)%nat || (beam_width <=? Z.of_nat (length queue))%Z.

Definition filter_beams (st : State) : State * bool :=
  let new_beams := map (List.filter (fun b => negb (stops b))) (current_beams st) in
  let queues :=
    zip_with (fun queue current => queue ++ List.filter stops current)
             (beam_queues st) (current_beams st) in
  ({| current_beams := new_beams;
      beam_queues := queues;
      update_info := update_info st;
      decoder_info := decoder_info st;
      kwargs := kwargs st |},
   forallb (fun '(current, queue) => group_finished current queue)
           (zip new_beams queues)).

(** Lines 84 to 108. *)
Definition group_output (intermediate : bool) (beam_queue current : list Beam)
  : list Beam :=
  let '(beam_queue, current) :=
    if intermediate then (current, beam_queue) else (beam_queue, current) in
  let beam_queue := Py.sorted_desc score beam_queue in
  let beam_queue :=
    if (length beam_queue =? 0)%nat && (return_incomplete || intermediate)
    then Py.sorted_desc score current
    else beam_queue in
  Py.slice_to beam_width beam_queue.

Definition get_outputs (intermediate : bool) (st : State) : list (list Beam) :=
  zip_with (group_output intermediate) (beam_queues st) (current_beams st).

(** Lines 181 to 189: the candidates of one group, in the order of its
    beams and, for one beam, of the sampled token ids. *)
Definition beam_candidates (log_probs : list Row) (entry : nat * Beam)
  : M W (list (Beam * Z * Q)) :=
  let '(beam_idx, beam) := entry in
  row <- lift_option (log_probs !! beam_idx) ;;
  token_ids <- sample_fn fns row beam_width ;;
  for_each (fun token_id =>
              lp <- lift_option (Py.index row token_id) ;;
              ret (beam, token_id, lp))
           token_ids.

Definition group_candidates (log_probs : list Row) (current : list Beam)
  : M W (list (Beam * Z * Q)) :=
  cs <- for_each (beam_candidates log_probs) (imap pair current) ;;
  ret (concat cs).

(** Lines 191 to 204: the best [beam_width] candidates by
    [beam.log_prob + log_prob] are handed to [candidate_fn], and those
    it does not reject become the new beams of the group. *)
Definition candidate_key (item : Beam * Z * Q) : Q :=
  (log_prob (item.1.1) + item.2)%Q.

Definition select_candidates (candidates : list (Beam * Z * Q))
  : M W (list Beam) :=
  cs <- for_each (fun '(beam, token_id, lp) => candidate_fn fns beam token_id lp)
                 (Py.slice_to beam_width
                    (Py.sorted_desc candidate_key candidates)) ;;
  ret (omap id cs).

Definition expand_group (entry : list Row * list Beam) : M W (list Beam) :=
  candidates <- group_candidates entry.1 entry.2 ;;
  select_candidates candidates.

(** Lines 111 to 206: one execution of the loop body. *)
Definition round (st : State) : M W State :=
  let num_beams := map length (current_beams st) in
  let beams := concat (current_beams st) in
  let decoder_mask :=
    concat (imap (fun idx current => Py.repeat_idx idx (length current))
                 (current_beams st)) in
  let decoder_lengths := map beam_len beams in
  let decoder_token_ids :=
    Torch.pad_sequence (map token_ids beams) pad_token_id in
  let kw :=
    match kwargs_update_fn fns, decoder_info st with
    | Some update, Some info =>
        update (kwargs st) info
               (concat (imap Py.repeat_idx (update_info st)))
    | _, _ => kwargs st
    end in
  let decoder_kwargs :=
    (fun select => select kw decoder_mask) <$> kwargs_select_fn fns in
  decoded <- decode_fn fns decoder_token_ids decoder_kwargs decoder_lengths ;;
  decoder_outputs <- lift_option (Torch.next_step decoded.1 decoder_lengths) ;;
  let decoder_outputs :=
    foldl (fun outputs logit_fn => logit_fn decoder_token_ids outputs beams)
          decoder_outputs (default [] (logit_fns fns)) in
  let log_probs := map log_softmax decoder_outputs in
  chunks <- lift_option (Torch.split log_probs num_beams) ;;
  new_beams <- for_each expand_group (zip chunks (current_beams st)) ;;
  ret {| current_beams := new_beams;
         beam_queues := beam_queues st;
         update_info := map length new_beams;
         decoder_info := Some decoded.2;
         kwargs := kw |}.

(** Lines 110 and 208 to 211: the generator.  [fuel] bounds the number
    of rounds a consumer is willing to wait for. *)
Fixpoint run_loop (fuel : nat) (st : State) (w : W) : Run :=
  let '(st1, finished) := filter_beams st in
  if finished
  then {| yielded := [get_outputs false st1]; rounds := 0; outcome := Exhausted |}
  else
    match fuel with
    | O => {| yielded := []; rounds := 0; outcome := OutOfFuel |}
    | S fuel' =>
        match round st1 w with
        | None => {| yielded := []; rounds := 1; outcome := Raised |}
        | Some (st2, w2) =>
            let rest := run_loop fuel' st2 w2 in
            {| yielded :=
                 (if yield_intermediate then [get_outputs true st2] else [])
                 ++ yielded rest;
               rounds := S (rounds rest);
               outcome := outcome rest |}
        end
    end.

(** The shared variables as the call of [filter_beams] that follows
    [n] rounds leaves them; [None] when the loop ends or raises before. *)
Fixpoint state_after (n : nat) (st : State) (w : W) : option State :=
  let '(st1, finished) := filter_beams st in
  match n with
  | O => Some st1
  | S n' =>
      if finished then None
      else match round st1 w with
           | None => None
           | Some (st2, w2) => state_after n' st2 w2
           end
  end.

Definition beam_search (initial : list Initial) (kw : Aux)
    (fuel : nat) (w : W) : Run :=
  match mapM initial_beams initial with
  | None => {| yielded := []; rounds := 0; outcome := Raised |}
  | Some groups => run_loop fuel (initial_state groups kw) w
  end.

End Engine.

Arguments InitBeam {Extra} _.
Arguments InitTokens {Extra} _.
Arguments InitBeams {Extra} _.
Arguments InitOther {Extra}.
Arguments Build_Callables {W Aux Info Sel Extra} _ _ _ _ _ _ _ _.
Arguments decode_fn {W Aux Info Sel Extra} _ _ _ _.
Arguments stop_fn {W Aux Info Sel Extra} _ _.
Arguments sample_fn {W Aux Info Sel Extra} _ _ _.
Arguments candidate_fn {W Aux Info Sel Extra} _ _ _ _.
Arguments score_fn {W Aux Info Sel Extra} _ _.
Arguments logit_fns {W Aux Info Sel Extra} _.
Arguments kwargs_select_fn {W Aux Info Sel Extra} _.
Arguments kwargs_update_fn {W Aux Info Sel Extra} _.
Arguments Build_State {Aux Info Extra} _ _ _ _ _.
Arguments current_beams {Aux Info Extra} _.
Arguments beam_queues {Aux Info Extra} _.
Arguments update_info {Aux Info Extra} _.
Arguments decoder_info {Aux Info Extra} _.
Arguments kwargs {Aux Info Extra} _.
Arguments Build_Run {Extra} _ _ _.
Arguments yielded {Extra} _.
Arguments rounds {Extra} _.
Arguments outcome {Extra} _.
Arguments score {Extra} _ _ _.
Arguments initial_beams {Extra} _.
Arguments initial_state {Aux Info Extra} _ _.
Arguments stops {W Aux Info Sel Extra} _ _ _.
Arguments group_finished {Extra} _ _ _.
Arguments filter_beams {W Aux Info Sel Extra} _ _ _ _.
Arguments group_output {Extra} _ _ _ _ _ _ _.
Arguments get_outputs {Aux Info Extra} _ _ _ _ _ _.
Arguments beam_candidates {W Aux Info Sel Extra} _ _ _ _.
Arguments group_candidates {W Aux Info Sel Extra} _ _ _ _.
Arguments candidate_key {Extra} _.
Arguments select_candidates {W Aux Info Sel Extra} _ _ _.
Arguments expand_group {W Aux Info Sel Extra} _ _ _.
Arguments round {W Aux Info Sel Extra} _ _ _ _ _.
Arguments run_loop {W Aux Info Sel Extra} _ _ _ _ _ _ _ _ _ _ _ _.
Arguments state_after {W Aux Info Sel Extra} _ _ _ _ _ _ _ _.
Arguments beam_search {W Aux Info Sel Extra} _ _ _ _ _ _ _ _ _ _ _ _ _.

(** The same callables with another [score_fn] argument. *)
Definition with_score_fn {W Aux Info Sel Extra}
    (supplied : Beam Extra -> Q) (fns : Callables W Aux Info Sel Extra)
  : Callables W Aux Info Sel Extra :=
  {| decode_fn := decode_fn fns;
     stop_fn := stop_fn fns;
     sample_fn := sample_fn fns;
     candidate_fn := candidate_fn fns;
     score_fn := supplied;
     logit_fns := logit_fns fns;
     kwargs_select_fn := kwargs_select_fn fns;
     kwargs_update_fn := kwargs_update_fn fns |}.

(** ** Continuation constraints, [text_utils/constraints.py] *)

Module Constraints.

(** [continuations.ContinuationIndex] is a compiled extension type whose
    code is not among the sources: it is taken as its two read-only
    lookups.  [get] maps a byte prefix to the allowed indices and the
    value of the entry the prefix completes, if any;
    [continuation_at] gives the bytes of a continuation and raises for
    an index it does not know. *)
Record ContinuationIndex := {
  index_get : list Byte.byte -> list Z * option string;
  continuation_at : Z -> option (list Byte.byte)
}.

(** The attributes of one [ContinuationConstraint] object. *)
Record ContinuationConstraint := {
  prefix : list Byte.byte;
  indices : list Z;
  value : option string;
  cont_index : ContinuationIndex
}.

(** Constraints are mutable objects: they live in a store and are
    handled through references. *)
Definition ref : Type := nat.

(** [prefix or bytes()]. *)
Definition prefix_or_empty (input : option (list Byte.byte)) : list Byte.byte :=
  default [] input.

(** The attribute values [__init__] and [reset] assign. *)
Definition fresh_object (ci : ContinuationIndex) (input : option (list Byte.byte))
  : ContinuationConstraint :=
  let p := prefix_or_empty input in
  {| prefix := p;
     indices := (index_get ci p).1;
     value := (index_get ci p).2;
     cont_index := ci |}.

(** [ContinuationConstraint(cont_index, prefix)]: a new object. *)
Definition init (ci : ContinuationIndex) (input : option (list Byte.byte))
    (h : gmap ref ContinuationConstraint) : ref * gmap ref ContinuationConstraint :=
  let r := fresh (dom h) in
  (r, <[r := fresh_object ci input]> h).

Definition is_match (h : gmap ref ContinuationConstraint) (self : ref)
  : option bool :=
  c ← h !! self; Some (bool_decide (value c ≠ None)).

Definition get (h : gmap ref ContinuationConstraint) (self : ref)
  : option (list Z * bool) :=
  c ← h !! self; m ← is_match h self; Some (indices c, m).

Definition reset (h : gmap ref ContinuationConstraint) (self : ref)
    (input : option (list Byte.byte)) : option (gmap ref ContinuationConstraint) :=
  c ← h !! self;
  Some (<[self := fresh_object (cont_index c) input]> h).

(** [next]: the right-hand side of [+=] is evaluated first, so a
    raising [continuation_at] leaves the object as it was. *)
Definition next (h : gmap ref ContinuationConstraint) (self : ref)
    (index : Z) : option (gmap ref ContinuationConstraint) :=
  c ← h !! self;
  bytes ← continuation_at (cont_index c) index;
  let p := prefix c ++ bytes in
  Some (<[self := {| prefix := p;
                     indices := (index_get (cont_index c) p).1;
                     value := (index_get (cont_index c) p).2;
                     cont_index := cont_index c |}]> h).

Definition clone (h : gmap ref ContinuationConstraint) (self : ref)
  : option (ref * gmap ref ContinuationConstraint) :=
  c ← h !! self; Some (init (cont_index c) (Some (prefix c)) h).

Definition get_value (h : gmap ref ContinuationConstraint) (self : ref)
  : option (option string) :=
  c ← h !! self; Some (value c).

(** A caller that applies [next] for each index in turn and carries on
    after a call that raised. *)
Definition next_all (h : gmap ref ContinuationConstraint) (self : ref)
    (idxs : list Z) : gmap ref ContinuationConstraint :=
  foldl (fun h' index => default h' (next h' self index)) h idxs.

End Constraints.

(** A continuation index for worked examples: the continuations are the
    one-letter tokens [c], [a], [t], [r] (indices 0 to 3) and the entries
    are the words [cat] and [car]. *)
Module DemoIndex.

Import Constraints.

Definition c : Byte.byte := Byte.x63.
Definition a : Byte.byte := Byte.x61.
Definition t : Byte.byte := Byte.x74.
Definition r : Byte.byte := Byte.x72.

Definition tokens : list (list Byte.byte) := [[c]; [a]; [t]; [r]].

Definition entries : list (list Byte.byte * string) :=
  [([c; a; t], "cat"%string); ([c; a; r], "car"%string)].

Definition bytes_eqb (x y : list Byte.byte) : bool :=
  bool_decide (Byte.to_N <$> x = Byte.to_N <$> y).

Definition is_prefix (x y : list Byte.byte) : bool :=
  bytes_eqb x (take (length x) y).

Definition lookup_prefix (p : list Byte.byte) : list Z * option string :=
  (omap (fun '(i, tok) =>
           if existsb (fun e => is_prefix (p ++ tok) e.1) entries
           then Some (Z.of_nat i) else None)
        (imap pair tokens),
   snd <$> List.find (fun e => bytes_eqb p e.1) entries).

Definition cat_car : ContinuationIndex :=
  {| index_get := lookup_prefix;
     continuation_at := fun i => if (0 <=? i)%Z then tokens !! Z.to_nat i else None |}.

(** A store with one constraint, at reference [0], that has consumed
    the prefix [ca]. *)
Definition store : gmap ref ContinuationConstraint :=
  {[ 0%nat := fresh_object cat_car (Some [c; a]) ]}.

End DemoIndex.

(** ** The loader configuration, [text_utils/api/processor.py] *)

Module Processor.

(** Values that appear in the configuration dictionaries. *)
#[warnings="-register-all"]
Inductive PyVal :=
| PInt (z : Z)
| PStr (s : string)
| PBool (b : bool)
| PDict (items : list (string * PyVal)).

(** [sys.maxsize] of a 64-bit CPython. *)
Definition sys_maxsize : Z := 2 ^ 63 - 1.

(** The truth value of the builtin function [sorted]: a function object
    is always true. *)
Definition builtin_sorted : bool := true.

(** [math.ceil(a / b)]; raises for [b = 0]. *)
Definition ceil_div (a b : Z) : option Z :=
  if decide (b = 0) then None else Some (- ((- a) / b)).

(** The local variable [prefetch_factor], lines 216 to 219.  The
    argument [sort] is in scope and not consulted. *)
Definition prefetch_factor (sort : bool) : Z :=
  if builtin_sorted then sys_maxsize else 1.

(** The dictionary literal of lines 221 to 230.  [max_length] is the
    property of the processor, [inference] is [self.cfg["inference"]]
    and [affinity] the size of [os.sched_getaffinity(0)]. *)
Definition inference_cfg (max_length : Z) (inference : gmap string PyVal)
    (affinity : nat) (batch_size : Z) (batch_max_tokens : option Z)
    (sort : bool) (num_threads : option Z) : option (gmap string PyVal) :=
  let num_threads :=
    match num_threads with
    | Some n => n
    | None => Z.min (Z.of_nat affinity) 4
    end in
  limits ←
    match batch_max_tokens with
    | None =>
        let batch_limit := Z.max 1 batch_size in
        Some (batch_limit, "batch_size"%string, batch_limit)
    | Some tokens =>
        let batch_limit := Z.max tokens max_length in
        min_items_per_batch ← ceil_div batch_limit max_length;
        Some (batch_limit, "padded_item_size"%string, min_items_per_batch)
    end;
  let '(batch_limit, batch_limit_type, buffer_size) := limits in
  let prefetch := prefetch_factor sort in
  tokenizer ← inference !! "tokenizer"%string;
  Some (<["tokenizer"%string := tokenizer]>
       (<["window"%string :=
            default (PDict [("type"%string, PStr "full")])
                    (inference !! "window"%string)]>
       (<["num_threads"%string := PInt num_threads]>
       (<["batch_limit"%string := PInt batch_limit]>
       (<["buffer_size"%string := PInt buffer_size]>
       (<["prefetch_factor"%string := PInt prefetch]>
       (<["batch_limit_type"%string := PStr batch_limit_type]>
       (<["sort"%string := PBool sort]> ∅)))))))).

(** [_get_loader]: the keyword arguments handed to
    [InferenceLoader.from_iterator], that is the literal updated with
    the caller's extra keyword arguments. *)
Definition get_loader (max_length : Z) (inference : gmap string PyVal)
    (affinity : nat) (batch_size : Z) (batch_max_tokens : option Z)
    (sort : bool) (num_threads : option Z) (kwargs : gmap string PyVal)
  : option (gmap string PyVal) :=
  cfg ← inference_cfg max_length inference affinity batch_size
                      batch_max_tokens sort num_threads;
  Some (kwargs ∪ cfg).

(** The [inference] section of a small configuration. *)
Definition demo_inference : gmap string PyVal :=
  {[ "tokenizer"%string := PDict [("type"%string, PStr "byte")] ]}.

End Processor.

(** ** Default policies and a small decoder for worked runs *)

Section Defaults.

Variables W Extra : Type.

(** Modelled from the spec: [default_beam_candidate_fn] of
    [text_utils/inference/utils.py] is not among the sources.  The child
    beam is the parent with the token and its log-probability appended;
    nothing is rejected. *)
Definition default_beam_candidate_fn
    (beam : Beam Extra) (token_id : Z) (lp : Q) : M W (option (Beam Extra)) :=
  ret (Some (mkBeam (token_ids beam ++ [token_id])
                    (log_probs beam ++ [lp])
                    (extra beam))).

(** Modelled from the spec: [greedy] of [text_utils/inference/utils.py]
    is not among the sources.  The [k] token ids of largest
    log-probability, best first. *)
Definition greedy (row : Row) (k : Z) : M W (list Z) :=
  ret (map fst (Py.slice_to k
                  (Py.sorted_desc snd (imap (fun i x => (Z.of_nat i, x)) row)))).

End Defaults.

Arguments default_beam_candidate_fn {W Extra} _ _ _.
Arguments greedy {W} _ _.

Module Demo.

(** A vocabulary of three tokens; token [0] ends a sequence.  The decoder
    answers every beam with the same single-position row: the
    log-probabilities of 0.6, 0.3 and 0.1 to two decimals.  On such a
    row [log_softmax] changes nothing, so it is taken as the identity
    in the worked runs. *)
Definition row : Row := [(-51 # 100); (-120 # 100); (-230 # 100)]%Q.

Definition decode (tokens : list (list Z)) (_ : option unit) (_ : list nat)
  : M unit (list (list Row) * unit) :=
  ret (map (fun _ => [row]) tokens, tt).

Definition ends_with_zero (b : Beam unit) : bool :=
  match last (token_ids b) with
  | Some t => (t =? 0)%Z
  | None => false
  end.

Definition never (_ : Beam unit) : bool := false.

(** A candidate policy that rejects everything. *)
Definition reject_all (_ : Beam unit) (_ : Z) (_ : Q) : M unit (option (Beam unit)) :=
  ret None.

(** A candidate policy that hands back the parent unchanged. *)
Definition keep_parent (b : Beam unit) (_ : Z) (_ : Q) : M unit (option (Beam unit)) :=
  ret (Some b).

(** A caller-supplied score that prefers the least likely beam. *)
Definition worst_first (b : Beam unit) : Q := (- log_prob b)%Q.

Definition callables (stop : Beam unit -> bool)
    (candidate : Beam unit -> Z -> Q -> M unit (option (Beam unit)))
    (supplied_score : Beam unit -> Q)
  : Callables unit unit unit unit unit :=
  {| decode_fn := decode;
     stop_fn := stop;
     sample_fn := greedy;
     candidate_fn := candidate;
     score_fn := supplied_score;
     logit_fns := None;
     kwargs_select_fn := None;
     kwargs_update_fn := None |}.

Definition standard : Callables unit unit unit unit unit :=
  callables ends_with_zero default_beam_candidate_fn
            (log_likelihood_score true 1).

Definition beam (ids : list Z) (lps : list Q) : Beam unit := mkBeam ids lps None.

(** The same decoder with a hidden state: it counts its calls. *)
Definition decode_counting (tokens : list (list Z)) (_ : option unit)
    (_ : list nat) : M nat (list (list Row) * unit) :=
  fun calls => Some ((map (fun _ => [row]) tokens, tt), S calls).

Definition counting : Callables nat unit unit unit unit :=
  {| decode_fn := decode_counting;
     stop_fn := ends_with_zero;
     sample_fn := greedy;
     candidate_fn := default_beam_candidate_fn;
     score_fn := log_likelihood_score true 1;
     logit_fns := None;
     kwargs_select_fn := None;
     kwargs_update_fn := None |}.

(** The initial beams of the worked runs: one group that starts from
    the token [1], and two groups of different lengths. *)
Definition one_group : list (Initial unit) := [InitTokens [1]].
Definition two_groups : list (Initial unit) :=
  [InitTokens [1]; InitTokens [1; 2]].

(** The beams of the worked runs. *)
Definition b1 : Beam unit := beam [1] [0%Q].
Definition b10 : Beam unit := beam [1; 0] [0; -51 # 100]%Q.
Definition b110 : Beam unit := beam [1; 1; 0] [0; -120 # 100; -51 # 100]%Q.
Definition b111 : Beam unit := beam [1; 1; 1] [0; -120 # 100; -120 # 100]%Q.

(** Two initial beams of one group for a run with equal scores: three
    tokens with a total log-probability of -2, and one token with 0. *)
Definition long_beam : Beam unit := beam [1; 1; 1] [0; -1; -1]%Q.
Definition short_beam : Beam unit := beam [1] [0%Q].
Definition tie_group : list (Initial unit) := [InitBeams [long_beam; short_beam]].

(** A decoder whose step depends on the length of the beam: after
    three tokens the end token 0 is certain, after fewer it has the
    log-probability -1. *)
Definition row_after (n : nat) : Row :=
  if (n =? 3)%nat then [0; -100]%Q else [-1; -46 # 100]%Q.

Definition decode_by_length (tokens : list (list Z)) (selected : option unit)
    (lengths : list nat) : M unit (list (list Row) * unit) :=
  ret (map (fun n => [row_after n]) lengths, tt).

(** A Sample policy that proposes the end token only. *)
Definition end_token_only (row : Row) (k : Z) : M unit (list Z) := ret [0].

Definition by_length : Callables unit unit unit unit unit :=
  {| decode_fn := decode_by_length;
     stop_fn := ends_with_zero;
     sample_fn := end_token_only;
     candidate_fn := default_beam_candidate_fn;
     score_fn := log_likelihood_score true 1;
     logit_fns := None;
     kwargs_select_fn := None;
     kwargs_update_fn := None |}.

(** The children of the two beams by the end token. *)
Definition long_child : Beam unit := beam [1; 1; 1; 0] [0; -1; -1; 0]%Q.
Definition short_child : Beam unit := beam [1; 0] [0; -1]%Q.

End Demo.

(** ** Vocabulary of the properties *)

(** [desc key a b]: [a] may stand before [b] in a list that is descending
    by [key]. *)
Definition desc {A} (key : A -> Q) (a b : A) : Prop := (key b <= key a)%Q.

(** The elements whose key is the number [q]. *)
Definition same_key {A} (key : A -> Q) (q : Q) (a : A) : bool :=
  Qeq_bool (key a) q.

(** A computation is deterministic when its result, or the fact that it
    raises, does not depend on the hidden world. *)
Definition deterministic {W A} (c : M W A) : Prop :=
  forall w1 w2, fst <$> c w1 = fst <$> c w2.

(** The decode function, the Sample policy and the Candidate policy are
    deterministic. *)
Definition deterministic_callables {W Aux Info Sel Extra}
    (fns : Callables W Aux Info Sel Extra) : Prop :=
  (forall tokens selected lengths,
      deterministic (decode_fn fns tokens selected lengths)) /\
  (forall row k, deterministic (sample_fn fns row k)) /\
  (forall beam token_id lp, deterministic (candidate_fn fns beam token_id lp)).

(** The contract of a Candidate policy: a child is longer than its
    parent. *)
Definition grows {W Aux Info Sel Extra} (fns : Callables W Aux Info Sel Extra)
  : Prop :=
  forall beam token_id lp w child w',
    candidate_fn fns beam token_id lp w = Some (Some child, w') ->
    (beam_len beam < beam_len child)%nat.

(** The Candidate policy rejects every candidate whose parent is one of
    the beams [bs]. *)
Definition rejects_children {W Aux Info Sel Extra}
    (fns : Callables W Aux Info Sel Extra) (bs : list (Beam Extra)) : Prop :=
  forall beam token_id lp w result w',
    beam ∈ bs ->
    candidate_fn fns beam token_id lp w = Some (result, w') ->
    result = None.

(** The variables of group [g] before a filter, when every candidate
    with a parent in [bs] is rejected: the queue and the stopped active
    beams together are the stopped beams of [bs]. *)
Definition pending {W Aux Info Sel Extra} (fns : Callables W Aux Info Sel Extra)
    (max_length : Z) (g : nat) (bs : list (Beam Extra))
    (st : State Aux Info Extra) : Prop :=
  exists queue current,
    beam_queues st !! g = Some queue /\
    current_beams st !! g = Some current /\
    queue ++ List.filter (stops fns max_length) current
    = List.filter (stops fns max_length) bs /\
    (forall beam, beam ∈ current -> beam ∈ bs).

(** The same after a filter: the queue is settled. *)
Definition settled {W Aux Info Sel Extra} (fns : Callables W Aux Info Sel Extra)
    (max_length : Z) (g : nat) (bs : list (Beam Extra))
    (st : State Aux Info Extra) : Prop :=
  exists current,
    beam_queues st !! g = Some (List.filter (stops fns max_length) bs) /\
    current_beams st !! g = Some current /\
    (forall beam, beam ∈ current -> beam ∈ bs).

(** The shared lists have one entry per group. *)
Definition well_formed {Aux Info Extra} (n : nat) (st : State Aux Info Extra)
  : Prop :=
  length (current_beams st) = n /\ length (beam_queues st) = n.

(** The list of a group that the final output ranks (lines 94 to 104
    with [intermediate] false): the finished queue, or the active beams
    when that queue is empty and [return_incomplete] is set. *)
Definition ranked {Extra} (return_incomplete : bool)
    (queue current : list (Beam Extra)) : list (Beam Extra) :=
  match queue with
  | [] => if return_incomplete then current else []
  | _ :: _ => queue
  end.

(** Every beam of the shared lists can be scored: with normalisation by
    length the score divides by a power of the length, which a beam
    without tokens does not allow. *)
Definition scorable {Aux Info Extra} (normalize_by_length : bool)
    (st : State Aux Info Extra) : Prop :=
  normalize_by_length = true ->
  forall beams beam,
    beams ∈ beam_queues st ++ current_beams st ->
    beam ∈ beams -> beam_len beam <> 0%nat.

(** Every active beam has at least [k] tokens. *)
Definition min_len {Aux Info Extra} (k : nat) (st : State Aux Info Extra)
  : Prop :=
  forall current beam,
    current ∈ current_beams st -> beam ∈ current -> (k <= beam_len beam)%nat.

(** * Properties *)

(** ** Python's [sorted] and slices *)

Section SortFacts.

Context {A : Type}.
Variable key : A -> Q.

Lemma Qle_bool_false (x y : Q) : Qle_bool x y = false -> (y <= x)%Q.
Proof.
  intros H. destruct (Qlt_le_dec y x) as [Hlt | Hle].
  - by apply Qlt_le_weak.
  - apply Qle_bool_iff in Hle. congruence.
Qed.

Lemma insert_desc_perm x l : Py.insert_desc key x l ≡ₚ x :: l.
Proof.
  induction l as [| y l IH]; simpl; [done |].
  destruct (Qle_bool (key y) (key x)); [done |].
  rewrite IH. apply Permutation_swap.
Qed.

Lemma sorted_desc_perm l : Py.sorted_desc key l ≡ₚ l.
Proof.
  induction l as [| x l IH]; simpl; [done |].
  by rewrite insert_desc_perm, IH.
Qed.

Lemma sorted_desc_length l : length (Py.sorted_desc key l) = length l.
Proof. by rewrite sorted_desc_perm. Qed.

Lemma sorted_desc_nil_inv l : Py.sorted_desc key l = [] -> l = [].
Proof.
  intros H. apply length_zero_iff_nil.
  by rewrite <- sorted_desc_length, H.
Qed.

Lemma insert_desc_sorted x l :
  StronglySorted (desc key) l -> StronglySorted (desc key) (Py.insert_desc key x l).
Proof.
  induction l as [| y l IH]; simpl; intros Hs.
  - repeat constructor.
  - apply StronglySorted_inv in Hs as [Hl Hy].
    destruct (Qle_bool (key y) (key x)) eqn:E.
    + apply Qle_bool_iff in E.
      constructor; [by constructor |].
      constructor; [exact E |].
      eapply Forall_impl; [exact Hy |].
      intros z Hz. unfold desc in *. by eapply Qle_trans.
    + apply Qle_bool_false in E.
      constructor; [by apply IH |].
      rewrite insert_desc_perm. by constructor.
Qed.

Lemma sorted_desc_sorted l : StronglySorted (desc key) (Py.sorted_desc key l).
Proof.
  induction l as [| x l IH]; simpl; [constructor |].
  by apply insert_desc_sorted.
Qed.

(** Stability: the elements of any one key keep their relative order. *)
Lemma insert_desc_stable q x l :
  List.filter (same_key key q) (Py.insert_desc key x l)
  = List.filter (same_key key q) (x :: l).
Proof.
  induction l as [| y l IH]; [done |].
  cbn [Py.insert_desc]. destruct (Qle_bool (key y) (key x)) eqn:E; [done |].
  cbn [List.filter] in *. rewrite IH.
  destruct (same_key key q x) eqn:Hx; [| done].
  destruct (same_key key q y) eqn:Hy; [| done].
  exfalso. unfold same_key in *.
  apply Qeq_bool_iff in Hx, Hy.
  assert (Qle_bool (key y) (key x) = true); [| congruence].
  apply Qle_bool_iff. rewrite Hx, Hy. apply Qle_refl.
Qed.

Lemma sorted_desc_stable q l :
  List.filter (same_key key q) (Py.sorted_desc key l) = List.filter (same_key key q) l.
Proof.
  induction l as [| x l IH]; [done |].
  cbn [Py.sorted_desc]. rewrite insert_desc_stable.
  cbn [List.filter]. by rewrite IH.
Qed.

End SortFacts.

Section SliceFacts.

Context {A : Type}.

Lemma slice_to_prefix k (l : list A) : Py.slice_to k l `prefix_of` l.
Proof. unfold Py.slice_to. destruct (0 <=? k)%Z; apply prefix_take. Qed.

Lemma slice_to_length k (l : list A) :
  (0 <= k)%Z -> (Z.of_nat (length (Py.slice_to k l)) <= k)%Z.
Proof.
  intros Hk. unfold Py.slice_to.
  destruct (Z.leb_spec 0 k); [| lia].
  rewrite length_take. lia.
Qed.

Lemma slice_to_nil k : Py.slice_to k (@nil A) = [].
Proof. unfold Py.slice_to. destruct (0 <=? k)%Z; by rewrite take_nil. Qed.

Lemma slice_to_zero (l : list A) : Py.slice_to 0 l = [].
Proof. done. Qed.

Lemma filter_prefix (f : A -> bool) (l1 l2 : list A) :
  l1 `prefix_of` l2 -> List.filter f l1 `prefix_of` List.filter f l2.
Proof. intros [k ->]. rewrite List.filter_app. by eexists. Qed.

Lemma sorted_prefix (R : A -> A -> Prop) (l1 l2 : list A) :
  l1 `prefix_of` l2 -> StronglySorted R l2 -> StronglySorted R l1.
Proof. intros [k ->]. apply StronglySorted_app_1_l. Qed.

End SliceFacts.

(** ** Computations in [M] *)

Section MonadFacts.

Context {W : Type}.

Lemma bind_Some {A B} (c : M W A) (k : A -> M W B) w b w' :
  bind c k w = Some (b, w') <->
  exists a w1, c w = Some (a, w1) /\ k a w1 = Some (b, w').
Proof.
  unfold bind. split.
  - destruct (c w) as [[a w1] |]; [eauto | done].
  - intros (a & w1 & -> & Hk). exact Hk.
Qed.

Lemma ret_Some {A} (a b : A) (w w' : W) :
  ret a w = Some (b, w') <-> a = b /\ w = w'.
Proof. unfold ret. split; [intros [= -> ->] | intros [-> ->]]; done. Qed.

Lemma lift_option_Some {A} (o : option A) (a : A) (w w' : W) :
  lift_option o w = Some (a, w') <-> o = Some a /\ w = w'.
Proof.
  destruct o; unfold lift_option, ret, raise;
    (split; [intros [= -> ->] | intros [[= ->] ->]]; done).
Qed.

(** Every result of a [for] loop comes from its element, in order. *)
Lemma for_each_Some {A B} (f : A -> M W B) l ys w w' :
  for_each f l w = Some (ys, w') ->
  Forall2 (fun x y => exists w1 w2, f x w1 = Some (y, w2)) l ys.
Proof.
  revert ys w. induction l as [| x l IH]; intros ys w; cbn [for_each].
  - intros H. apply ret_Some in H as [<- _]. constructor.
  - intros H. apply bind_Some in H as (y & w1 & Hy & H).
    apply bind_Some in H as (ys' & w2 & Hys & H).
    apply ret_Some in H as [<- <-].
    constructor; eauto.
Qed.

Lemma deterministic_ret {A} (a : A) : deterministic (W := W) (ret a).
Proof. done. Qed.

Lemma deterministic_lift_option {A} (o : option A) :
  deterministic (W := W) (lift_option o).
Proof. by destruct o. Qed.

Lemma deterministic_bind {A B} (c : M W A) (k : A -> M W B) :
  deterministic c -> (forall a, deterministic (k a)) ->
  deterministic (bind c k).
Proof.
  intros Hc Hk w1 w2. unfold bind. specialize (Hc w1 w2).
  destruct (c w1) as [[a1 u1] |], (c w2) as [[a2 u2] |];
    simplify_eq/=; [apply Hk | done].
Qed.

Lemma deterministic_for_each {A B} (f : A -> M W B) l :
  (forall x, deterministic (f x)) -> deterministic (for_each f l).
Proof.
  intros Hf. induction l as [| x l IH]; cbn [for_each].
  - apply deterministic_ret.
  - apply deterministic_bind; [apply Hf |]. intros y.
    apply deterministic_bind; [apply IH |]. intros ys.
    apply deterministic_ret.
Qed.

End MonadFacts.

Lemma split_length {A} (rows : list A) sizes chunks :
  Torch.split rows sizes = Some chunks -> length chunks = length sizes.
Proof.
  revert rows chunks. induction sizes as [| n sizes IH]; intros rows chunks; simpl.
  - destruct rows; naive_solver.
  - case_decide; [| done].
    destruct (Torch.split (drop n rows) sizes) as [cs |] eqn:E; [| done].
    intros [= <-]. simpl. f_equal. by eapply IH.
Qed.

Lemma omap_length_le {A B} (f : A -> option B) (l : list A) :
  (length (omap f l) <= length l)%nat.
Proof.
  induction l as [| x l IH]; [done |].
  change (omap f (x :: l)) with (match f x with Some y => y :: omap f l | None => omap f l end).
  destruct (f x); simpl; lia.
Qed.

Lemma Forall2_zip_r {A B C} (P : A * B -> C -> Prop) (l : list A) (k : list B) (m : list C) :
  length l = length k ->
  Forall2 P (zip l k) m ->
  Forall2 (fun y z => exists x, P (x, y) z) k m.
Proof.
  revert k m. induction l as [| x l IH]; intros [| y k] m Hlen H;
    simplify_eq/=.
  - inversion H. constructor.
  - inversion H as [| ? z ? m' Hxy Hrest]; subst.
    constructor; eauto.
Qed.

(** ** One round of the engine *)

Section RoundFacts.

Context {W Aux Info Sel Extra : Type}.
Variable log_softmax : Row -> Row.
Variable fns : Callables W Aux Info Sel Extra.
Variables pad_token_id beam_width : Z.

(** Every candidate of a beam has that beam as its parent. *)
Lemma beam_candidates_parent log_probs idx (beam : Beam Extra) cs w w' :
  beam_candidates fns beam_width log_probs (idx, beam) w = Some (cs, w') ->
  forall item, item ∈ cs -> item.1.1 = beam.
Proof.
  unfold beam_candidates. intros H.
  apply bind_Some in H as (row & w1 & _ & H).
  apply bind_Some in H as (toks & w2 & _ & H).
  apply for_each_Some in H.
  intros item Hin. apply list_elem_of_lookup in Hin as [i Hi].
  destruct (Forall2_lookup_r _ _ _ _ _ H Hi) as (t & _ & u1 & u2 & Ht).
  apply bind_Some in Ht as (lp & u3 & _ & Ht).
  apply ret_Some in Ht as [<- _]. done.
Qed.

Lemma group_candidates_parent log_probs (current : list (Beam Extra)) cs w w' :
  group_candidates fns beam_width log_probs current w = Some (cs, w') ->
  forall item, item ∈ cs -> item.1.1 ∈ current.
Proof.
  unfold group_candidates. intros H.
  apply bind_Some in H as (css & w1 & H & Hret).
  apply ret_Some in Hret as [<- _].
  apply for_each_Some in H.
  intros item Hin. apply list_elem_of_In, in_concat in Hin as (cs & Hcs & Hitem).
  apply list_elem_of_In in Hcs, Hitem.
  apply list_elem_of_lookup in Hcs as [i Hi].
  destruct (Forall2_lookup_r _ _ _ _ _ H Hi) as ([idx beam] & Hb & u1 & u2 & Hc).
  rewrite (beam_candidates_parent _ _ _ _ _ _ Hc item Hitem).
  apply list_lookup_imap_Some in Hb as (b & Hb & [= _ ->]).
  by eapply list_elem_of_lookup_2.
Qed.

(** The new beams of a group are accepted candidates among the best
    [beam_width], and at most that many. *)
Lemma select_candidates_origin cs (bs : list (Beam Extra)) w w' :
  select_candidates fns beam_width cs w = Some (bs, w') ->
  forall c, c ∈ bs ->
    exists item w1 w2,
      item ∈ cs /\
      candidate_fn fns item.1.1 item.1.2 item.2 w1 = Some (Some c, w2).
Proof.
  unfold select_candidates. intros H.
  apply bind_Some in H as (rs & w1 & H & Hret).
  apply ret_Some in Hret as [<- _].
  apply for_each_Some in H.
  intros c Hc. apply list_elem_of_omap in Hc as (r & Hr & Hsome).
  simpl in Hsome. subst r.
  apply list_elem_of_lookup in Hr as [i Hi].
  destruct (Forall2_lookup_r _ _ _ _ _ H Hi) as ([[beam t] lp] & Hitem & u1 & u2 & Hc).
  exists (beam, t, lp), u1, u2. split; [| exact Hc].
  apply list_elem_of_lookup_2 in Hitem.
  destruct (slice_to_prefix beam_width (Py.sorted_desc candidate_key cs)) as [rest Hrest].
  assert (Hin : (beam, t, lp) ∈ Py.sorted_desc candidate_key cs).
  { rewrite Hrest. apply elem_of_app. by left. }
  by rewrite sorted_desc_perm in Hin.
Qed.

Lemma select_candidates_width cs (bs : list (Beam Extra)) w w' :
  (0 <= beam_width)%Z ->
  select_candidates fns beam_width cs w = Some (bs, w') ->
  (Z.of_nat (length bs) <= beam_width)%Z.
Proof.
  unfold select_candidates. intros Hbw H.
  apply bind_Some in H as (rs & w1 & H & Hret).
  apply ret_Some in Hret as [<- _].
  apply for_each_Some, Forall2_length in H.
  pose proof (omap_length_le id rs).
  pose proof (slice_to_length beam_width (Py.sorted_desc candidate_key cs) Hbw).
  lia.
Qed.

(** What a round does to the shared variables: the queues stay, and
    every group is replaced by its expansion. *)
Lemma round_Some (st st' : State Aux Info Extra) w w' :
  round log_softmax fns pad_token_id beam_width st w = Some (st', w') ->
  beam_queues st' = beam_queues st /\
  update_info st' = map length (current_beams st') /\
  Forall2 (fun current new =>
             exists rows w1 w2,
               expand_group fns beam_width (rows, current) w1 = Some (new, w2))
          (current_beams st) (current_beams st').
Proof.
  unfold round. intros H.
  apply bind_Some in H as (decoded & w1 & _ & H).
  apply bind_Some in H as (outputs & w2 & _ & H).
  apply bind_Some in H as (chunks & w3 & Hsplit & H).
  apply bind_Some in H as (new_beams & w4 & Hnew & H).
  apply ret_Some in H as [<- _]. cbn.
  split; [done |]. split; [done |].
  apply lift_option_Some in Hsplit as [Hsplit _].
  apply split_length in Hsplit. rewrite length_map in Hsplit.
  apply for_each_Some in Hnew.
  apply Forall2_zip_r in Hnew; [| done].
  eapply Forall2_impl; [exact Hnew |].
  intros current new (rows & u1 & u2 & Hx). eauto.
Qed.

Lemma round_width (st st' : State Aux Info Extra) w w' :
  (0 <= beam_width)%Z ->
  round log_softmax fns pad_token_id beam_width st w = Some (st', w') ->
  Forall (fun current => (Z.of_nat (length current) <= beam_width)%Z)
         (current_beams st').
Proof.
  intros Hbw H. apply round_Some in H as (_ & _ & H).
  apply Forall_lookup_2. intros g new Hg.
  destruct (Forall2_lookup_r _ _ _ _ _ H Hg) as (current & _ & rows & w1 & w2 & Hx).
  unfold expand_group in Hx.
  apply bind_Some in Hx as (cs & w3 & _ & Hx).
  by eapply select_candidates_width.
Qed.

End RoundFacts.

(** ** The loop *)

Section LoopFacts.

Context {W Aux Info Sel Extra : Type}.
Variable log_softmax : Row -> Row.
Variable fns : Callables W Aux Info Sel Extra.
Variables pad_token_id max_length : Z.
Variable normalize_by_length : bool.
Variable alpha : Z.
Variable beam_width : Z.
Variables return_incomplete yield_intermediate : bool.

Local Abbreviation filtered st := (filter_beams fns max_length beam_width st).
Local Abbreviation outputs :=
  (get_outputs normalize_by_length alpha beam_width return_incomplete).
Local Abbreviation one_round := (round log_softmax fns pad_token_id beam_width).
Local Abbreviation loop :=
  (run_loop log_softmax fns pad_token_id max_length normalize_by_length
            alpha beam_width return_incomplete yield_intermediate).
Local Abbreviation after :=
  (state_after log_softmax fns pad_token_id max_length beam_width).

Lemma run_loop_eq fuel (st : State Aux Info Extra) w :
  loop fuel st w =
  if (filtered st).2
  then {| yielded := [outputs false (filtered st).1];
          rounds := 0; outcome := Exhausted |}
  else
    match fuel with
    | O => {| yielded := []; rounds := 0; outcome := OutOfFuel |}
    | S fuel' =>
        match one_round (filtered st).1 w with
        | None => {| yielded := []; rounds := 1; outcome := Raised |}
        | Some (st2, w2) =>
            {| yielded :=
                 (if yield_intermediate then [outputs true st2] else [])
                 ++ yielded (loop fuel' st2 w2);
               rounds := S (rounds (loop fuel' st2 w2));
               outcome := outcome (loop fuel' st2 w2) |}
        end
    end.
Proof. destruct fuel; reflexivity. Qed.

Lemma state_after_eq n (st : State Aux Info Extra) w :
  after n st w =
  match n with
  | O => Some (filtered st).1
  | S n' =>
      if (filtered st).2 then None
      else match one_round (filtered st).1 w with
           | None => None
           | Some (st2, w2) => after n' st2 w2
           end
  end.
Proof. destruct n; reflexivity. Qed.

Lemma filter_current (st : State Aux Info Extra) :
  current_beams (filtered st).1
  = map (List.filter (fun b => negb (stops fns max_length b))) (current_beams st).
Proof. reflexivity. Qed.

Lemma filter_queues (st : State Aux Info Extra) :
  beam_queues (filtered st).1
  = zip_with (fun queue current => queue ++ List.filter (stops fns max_length) current)
             (beam_queues st) (current_beams st).
Proof. reflexivity. Qed.

Lemma filter_finished (st : State Aux Info Extra) :
  (filtered st).2
  = forallb (fun '(current, queue) => group_finished beam_width current queue)
            (zip (current_beams (filtered st).1) (beam_queues (filtered st).1)).
Proof. reflexivity. Qed.

(** Filtering only removes beams from the active lists. *)
Lemma filter_width (st : State Aux Info Extra) :
  Forall (fun current => (Z.of_nat (length current) <= beam_width)%Z)
         (current_beams st) ->
  Forall (fun current => (Z.of_nat (length current) <= beam_width)%Z)
         (current_beams (filtered st).1).
Proof.
  rewrite filter_current. intros H. apply Forall_fmap.
  eapply Forall_impl; [exact H |]. intros current Hc.
  unfold compose. cbv beta in Hc.
  pose proof (List.filter_length_le
                (fun b => negb (stops fns max_length b)) current).
  lia.
Qed.

Lemma group_output_width intermediate (queue current : list (Beam Extra)) :
  (0 <= beam_width)%Z ->
  (Z.of_nat (length (group_output normalize_by_length alpha beam_width
                                  return_incomplete intermediate queue current))
   <= beam_width)%Z.
Proof.
  intros Hbw. unfold group_output.
  destruct intermediate; by apply slice_to_length.
Qed.

Lemma outputs_width intermediate (st : State Aux Info Extra) group :
  (0 <= beam_width)%Z ->
  group ∈ outputs intermediate st ->
  (Z.of_nat (length group) <= beam_width)%Z.
Proof.
  intros Hbw Hin. unfold get_outputs in Hin.
  apply elem_of_zip_with in Hin as (queue & current & -> & _ & _).
  by apply group_output_width.
Qed.

(** The width bounds along the loop, from any state. *)
Lemma loop_width :
  (0 <= beam_width)%Z ->
  (forall n (st st' : State Aux Info Extra) w,
      after (S n) st w = Some st' ->
      Forall (fun current => (Z.of_nat (length current) <= beam_width)%Z)
             (current_beams st')) /\
  (forall fuel (st : State Aux Info Extra) w out group,
      out ∈ yielded (loop fuel st w) -> group ∈ out ->
      (Z.of_nat (length group) <= beam_width)%Z).
Proof.
  intros Hbw. split.
  - induction n as [| n IH]; intros st st' w; rewrite state_after_eq.
    + destruct (filtered st).2; [done |].
      destruct (one_round (filtered st).1 w) as [[st2 w2] |] eqn:Hr; [| done].
      rewrite state_after_eq. intros [= <-].
      apply filter_width. by eapply round_width.
    + destruct (filtered st).2; [done |].
      destruct (one_round (filtered st).1 w) as [[st2 w2] |]; [| done].
      apply IH.
  - induction fuel as [| fuel IH]; intros st w out group; rewrite run_loop_eq.
    + destruct (filtered st).2; cbn [yielded].
      * intros ->%list_elem_of_singleton. by apply outputs_width.
      * by intros ?%elem_of_nil.
    + destruct (filtered st).2; cbn [yielded].
      * intros ->%list_elem_of_singleton. by apply outputs_width.
      * destruct (one_round (filtered st).1 w) as [[st2 w2] |]; cbn [yielded].
        -- intros [Hout | Hout]%elem_of_app.
           ++ destruct yield_intermediate.
              ** apply list_elem_of_singleton in Hout as ->.
                 by apply outputs_width.
              ** by apply elem_of_nil in Hout.
           ++ by eapply IH.
        -- by intros ?%elem_of_nil.
Qed.

(** The number of elements a loop that runs to its end yields. *)
Lemma loop_yield_count fuel (st : State Aux Info Extra) w :
  outcome (loop fuel st w) = Exhausted ->
  length (yielded (loop fuel st w))
  = if yield_intermediate then S (rounds (loop fuel st w)) else 1%nat.
Proof.
  revert st w. induction fuel as [| fuel IH]; intros st w; rewrite run_loop_eq.
  - destruct (filtered st).2; cbn [yielded rounds outcome length];
      [by destruct yield_intermediate | done].
  - destruct (filtered st).2; cbn [yielded rounds outcome length];
      [by destruct yield_intermediate |].
    destruct (one_round (filtered st).1 w) as [[st2 w2] |];
      cbn [yielded rounds outcome length]; [| done].
    intros Hend. rewrite length_app, (IH _ _ Hend).
    by destruct yield_intermediate.
Qed.

(** *** Termination *)

Lemma filter_elem (st : State Aux Info Extra) current beam :
  current ∈ current_beams (filtered st).1 -> beam ∈ current ->
  stops fns max_length beam = false /\
  exists current', current' ∈ current_beams st /\ beam ∈ current'.
Proof.
  rewrite filter_current. intros Hc Hb.
  apply list_elem_of_fmap in Hc as (current' & -> & Hc).
  apply list_elem_of_In, List.filter_In in Hb as [Hb Hs].
  apply list_elem_of_In in Hb. apply negb_true_iff in Hs. eauto.
Qed.

Lemma filter_min_len k (st : State Aux Info Extra) :
  min_len k st -> min_len k (filtered st).1.
Proof.
  intros H current beam Hc Hb.
  destruct (filter_elem _ _ _ Hc Hb) as (_ & current' & Hc' & Hb').
  by eapply H.
Qed.

Lemma forallb_false {A} (f : A -> bool) (l : list A) :
  forallb f l = false -> exists x, x ∈ l /\ f x = false.
Proof.
  induction l as [| x l IH]; [done |]. cbn [forallb].
  destruct (f x) eqn:E.
  - intros (y & Hy & Hf)%IH. exists y. split; [by right | done].
  - intros _. exists x. split; [by left | done].
Qed.

(** While the loop goes on, some beam is active and below the cap. *)
Lemma not_finished_active (st : State Aux Info Extra) :
  (filtered st).2 = false ->
  exists current beam,
    current ∈ current_beams (filtered st).1 /\ beam ∈ current /\
    (Z.of_nat (beam_len beam) < max_length)%Z.
Proof.
  rewrite filter_finished. intros ([current queue] & Hin & Hf)%forallb_false.
  apply elem_of_zip_l in Hin.
  unfold group_finished in Hf. apply orb_false_iff in Hf as [Hlen _].
  destruct current as [| beam current]; [done |].
  exists (beam :: current), beam.
  assert (Hb : beam ∈ beam :: current) by left.
  split; [done |]. split; [done |].
  destruct (filter_elem _ _ _ Hin Hb) as (Hs & _).
  unfold stops in Hs. apply orb_false_iff in Hs as [_ Hs]. lia.
Qed.

Lemma round_min_len k (st st' : State Aux Info Extra) w w' :
  grows fns -> min_len k st ->
  one_round st w = Some (st', w') ->
  min_len (S k) st'.
Proof.
  intros Hgrow Hmin H. apply round_Some in H as (_ & _ & H).
  intros new child Hnew Hchild.
  apply list_elem_of_lookup in Hnew as [g Hg].
  destruct (Forall2_lookup_r _ _ _ _ _ H Hg)
    as (current & Hcur & rows & w1 & w2 & Hx).
  unfold expand_group in Hx.
  apply bind_Some in Hx as (cs & w3 & Hcs & Hsel).
  destruct (select_candidates_origin _ _ _ _ _ _ Hsel child Hchild)
    as (item & u1 & u2 & Hitem & Hcand).
  pose proof (group_candidates_parent _ _ _ _ _ _ _ Hcs item Hitem) as Hparent.
  apply Hgrow in Hcand.
  apply list_elem_of_lookup_2 in Hcur.
  specialize (Hmin _ _ Hcur Hparent). cbn in *. lia.
Qed.

Lemma loop_bound :
  grows fns ->
  forall fuel (st : State Aux Info Extra) w k,
    min_len k st ->
    (rounds (loop fuel st w) <= Z.to_nat max_length - k)%nat /\
    ((Z.to_nat max_length - k <= fuel)%nat ->
     outcome (loop fuel st w) <> OutOfFuel).
Proof.
  intros Hgrow. induction fuel as [| fuel IH]; intros st w k Hmin;
    rewrite run_loop_eq;
    destruct (filtered st).2 eqn:Hfin; cbn [rounds outcome];
    try (split; [lia | done]).
  - apply not_finished_active in Hfin as (current & beam & Hc & Hb & Hcap).
    pose proof (filter_min_len _ _ Hmin _ _ Hc Hb). split; lia.
  - apply not_finished_active in Hfin as (current & beam & Hc & Hb & Hcap).
    pose proof (filter_min_len _ _ Hmin _ _ Hc Hb) as Hk.
    destruct (one_round (filtered st).1 w) as [[st2 w2] |] eqn:Hr;
      cbn [rounds outcome]; [| split; [lia | done]].
    apply filter_min_len in Hmin.
    destruct (IH st2 w2 (S k) (round_min_len _ _ _ _ _ Hgrow Hmin Hr))
      as [Hrounds Hout].
    split; [lia |]. intros Hfuel. apply Hout. lia.
Qed.

(** *** Determinism *)

Lemma round_deterministic (st : State Aux Info Extra) :
  deterministic_callables fns -> deterministic (one_round st).
Proof.
  intros (Hdecode & Hsample & Hcandidate). unfold round.
  apply deterministic_bind; [apply Hdecode |]. intros decoded.
  apply deterministic_bind; [apply deterministic_lift_option |]. intros outs.
  apply deterministic_bind; [apply deterministic_lift_option |]. intros chunks.
  apply deterministic_bind; [| intros; apply deterministic_ret].
  apply deterministic_for_each. intros [rows current]. unfold expand_group.
  apply deterministic_bind.
  - unfold group_candidates.
    apply deterministic_bind; [| intros; apply deterministic_ret].
    apply deterministic_for_each. intros [idx beam]. unfold beam_candidates.
    apply deterministic_bind; [apply deterministic_lift_option |]. intros row.
    apply deterministic_bind; [apply Hsample |]. intros toks.
    apply deterministic_for_each. intros token_id.
    apply deterministic_bind; [apply deterministic_lift_option |].
    intros; apply deterministic_ret.
  - intros cs. unfold select_candidates.
    apply deterministic_bind; [| intros; apply deterministic_ret].
    apply deterministic_for_each. intros [[beam token_id] lp].
    apply Hcandidate.
Qed.

Lemma loop_deterministic :
  deterministic_callables fns ->
  forall fuel (st : State Aux Info Extra) w1 w2,
    loop fuel st w1 = loop fuel st w2.
Proof.
  intros Hdet. induction fuel as [| fuel IH]; intros st w1 w2;
    rewrite !run_loop_eq; [done |].
  destruct (filtered st).2; [done |].
  pose proof (round_deterministic (filtered st).1 Hdet w1 w2) as Hr.
  destruct (one_round (filtered st).1 w1) as [[st1 u1] |],
           (one_round (filtered st).1 w2) as [[st2 u2] |];
    simplify_eq/=; [| done].
  by rewrite (IH st2 u1 u2).
Qed.

(** *** The final ranking *)

Local Abbreviation score_ := (score (Extra := Extra) normalize_by_length alpha).
Local Abbreviation group_out :=
  (group_output normalize_by_length alpha beam_width return_incomplete).

Lemma group_output_sorted intermediate (queue current : list (Beam Extra)) :
  StronglySorted (desc score_) (group_out intermediate queue current).
Proof.
  unfold group_output.
  destruct intermediate; cbv zeta iota beta;
    (eapply sorted_prefix; [apply slice_to_prefix |]);
    destruct (_ && _); apply sorted_desc_sorted.
Qed.

Lemma outputs_lookup intermediate (st : State Aux Info Extra) g queue current :
  beam_queues st !! g = Some queue ->
  current_beams st !! g = Some current ->
  outputs intermediate st !! g = Some (group_out intermediate queue current).
Proof.
  intros Hq Hc. unfold get_outputs. apply lookup_zip_with_Some. eauto.
Qed.

(** *** A group whose candidates are all rejected *)

Section Rejected.

Variable g : nat.
Variable bs : list (Beam Extra).
Hypothesis Hreject : rejects_children fns bs.
Hypothesis Hwidth : (1 <= beam_width)%Z.

Local Abbreviation done_ := (List.filter (stops fns max_length) bs).

Local Abbreviation pending := (pending fns max_length g bs).
Local Abbreviation settled := (settled fns max_length g bs).

Lemma filter_settles st : pending st -> settled (filtered st).1.
Proof.
  intros (queue & current & Hq & Hc & Hdone & Hsub).
  exists (List.filter (fun b => negb (stops fns max_length b)) current).
  rewrite filter_queues, filter_current. split; [| split].
  - apply lookup_zip_with_Some. exists queue, current. by rewrite Hdone.
  - by rewrite list_lookup_fmap, Hc.
  - intros beam Hb. apply list_elem_of_In, List.filter_In in Hb as [Hb _].
    by apply Hsub, list_elem_of_In.
Qed.

Lemma round_empties st st' w w' :
  settled st -> one_round st w = Some (st', w') -> pending st'.
Proof.
  intros (current & Hq & Hc & Hsub) H.
  apply round_Some in H as (Hqueues & _ & H).
  destruct (Forall2_lookup_l _ _ _ _ _ H Hc)
    as (new & Hnew & rows & w1 & w2 & Hx).
  assert (new = []) as ->.
  { destruct new as [| child new]; [done |]. exfalso.
    unfold expand_group in Hx.
    apply bind_Some in Hx as (cs & w3 & Hcs & Hsel).
    destruct (select_candidates_origin _ _ _ _ _ _ Hsel child)
      as (item & u1 & u2 & Hitem & Hcand); [left |].
    pose proof (group_candidates_parent _ _ _ _ _ _ _ Hcs item Hitem) as Hp.
    by pose proof (Hreject _ _ _ _ _ _ (Hsub _ Hp) Hcand). }
  exists done_, []. rewrite Hqueues.
  split; [done |]. split; [done |]. split; [apply app_nil_r |].
  by intros beam ?%elem_of_nil.
Qed.

Lemma settled_output st :
  settled (filtered st).1 -> (filtered st).2 = true ->
  outputs false (filtered st).1 !! g
  = Some (Py.slice_to beam_width (Py.sorted_desc score_ done_)).
Proof.
  intros (current & Hq & Hc & _) Hfin.
  rewrite (outputs_lookup _ _ _ _ _ Hq Hc). f_equal.
  rewrite filter_finished in Hfin.
  assert (Hg : group_finished beam_width current done_ = true).
  { rewrite forallb_forall in Hfin.
    apply (Hfin (current, done_)), list_elem_of_In.
    eapply list_elem_of_lookup_2. apply lookup_zip_Some. eauto. }
  unfold group_output. cbv zeta iota beta.
  rewrite sorted_desc_length, orb_false_r.
  destruct done_ as [| beam rest] eqn:E; [| done].
  unfold group_finished in Hg. cbn [length] in Hg.
  apply orb_true_iff in Hg as [Hg | Hg]; [| apply Z.leb_le in Hg; lia].
  destruct current; [| done].
  by destruct return_incomplete.
Qed.

Lemma loop_rejected fuel st w :
  pending st ->
  outcome (loop fuel st w) = Exhausted ->
  exists out,
    last (yielded (loop fuel st w)) = Some out /\
    out !! g = Some (Py.slice_to beam_width (Py.sorted_desc score_ done_)).
Proof.
  revert st w. induction fuel as [| fuel IH]; intros st w Hp;
    rewrite run_loop_eq; apply filter_settles in Hp;
    destruct (filtered st).2 eqn:Hfin; cbn [yielded outcome];
    try done; try (intros _; eexists; split; [done |];
                   by apply settled_output).
  destruct (one_round (filtered st).1 w) as [[st2 w2] |] eqn:Hr;
    cbn [yielded outcome]; [| done].
  intros Hend.
  destruct (IH st2 w2 (round_empties _ _ _ _ Hp Hr) Hend) as (out & Hlast & Hout).
  exists out. split; [| done].
  rewrite last_app, Hlast. done.
Qed.

End Rejected.

End LoopFacts.

(** ** Calls with a beam width of zero *)

Section ZeroWidth.

Context {W Aux Info Sel Extra : Type}.
Variable fns : Callables W Aux Info Sel Extra.
Variable max_length : Z.

Lemma zero_width_finished (st : State Aux Info Extra) :
  (filter_beams fns max_length 0 st).2 = true.
Proof.
  cbn [filter_beams snd]. apply forallb_forall. intros [current queue] _.
  unfold group_finished. apply orb_true_iff. right. apply Z.leb_le. lia.
Qed.

Lemma zero_width_outputs normalize_by_length alpha return_incomplete
    intermediate (st : State Aux Info Extra) :
  get_outputs normalize_by_length alpha 0 return_incomplete intermediate st
  = replicate (length (beam_queues st) `min` length (current_beams st)) [].
Proof.
  symmetry. apply replicate_as_elem_of. unfold get_outputs.
  split; [apply length_zip_with |].
  intros group (queue & current & -> & _)%elem_of_zip_with.
  unfold group_output. by destruct intermediate.
Qed.

Lemma initial_beams_valid (initial : list (Initial Extra)) :
  Forall (fun init => init <> InitOther) initial ->
  exists groups,
    mapM initial_beams initial = Some groups /\
    length groups = length initial.
Proof.
  intros H.
  destruct (mapM_is_Some_2 initial_beams initial) as [groups Hg].
  - eapply Forall_impl; [exact H |].
    intros [b | [| t ids] | bs |] Hi; by eauto.
  - exists groups. split; [done |]. symmetry. by eapply length_mapM.
Qed.

End ZeroWidth.

(** ** The finished queue *)

Section QueueFacts.

Context {W Aux Info Sel Extra : Type}.
Variable log_softmax : Row -> Row.
Variable fns : Callables W Aux Info Sel Extra.
Variables pad_token_id max_length : Z.
Variable normalize_by_length : bool.
Variable alpha : Z.
Variable beam_width : Z.
Variables return_incomplete yield_intermediate : bool.

Local Abbreviation filtered st := (filter_beams fns max_length beam_width st).
Local Abbreviation outputs :=
  (get_outputs normalize_by_length alpha beam_width return_incomplete).
Local Abbreviation one_round := (round log_softmax fns pad_token_id beam_width).
Local Abbreviation loop :=
  (run_loop log_softmax fns pad_token_id max_length normalize_by_length
            alpha beam_width return_incomplete yield_intermediate).
Local Abbreviation after :=
  (state_after log_softmax fns pad_token_id max_length beam_width).
Local Abbreviation score_ := (score normalize_by_length alpha).

(** *** One entry per group *)

Lemma well_formed_initial (groups : list (list (Beam Extra))) (kw : Aux) :
  well_formed (Info := Info) (length groups) (initial_state groups kw).
Proof. split; cbn; [done | by rewrite length_map]. Qed.

Lemma well_formed_filter n (st : State Aux Info Extra) :
  well_formed n st -> well_formed n (filtered st).1.
Proof.
  intros [Hc Hq]. split.
  - by rewrite filter_current, length_map.
  - rewrite filter_queues, length_zip_with. lia.
Qed.

Lemma well_formed_round n (st st' : State Aux Info Extra) w w' :
  well_formed n st -> one_round st w = Some (st', w') -> well_formed n st'.
Proof.
  intros [Hc Hq] H. apply round_Some in H as (Hqueues & _ & H).
  apply Forall2_length in H. split; congruence.
Qed.

(** *** A capped beam leaves the active list *)

Lemma capped_beam_stops (beam : Beam Extra) :
  (max_length <= Z.of_nat (beam_len beam))%Z -> stops fns max_length beam = true.
Proof.
  intros Hcap. unfold stops. apply orb_true_iff. right. by apply Z.leb_le.
Qed.

Lemma capped_beam_moves (st : State Aux Info Extra) g queue current beam :
  beam_queues st !! g = Some queue ->
  current_beams st !! g = Some current ->
  beam ∈ current ->
  (max_length <= Z.of_nat (beam_len beam))%Z ->
  beam_queues (filtered st).1 !! g
  = Some (queue ++ List.filter (stops fns max_length) current) /\
  beam ∈ List.filter (stops fns max_length) current /\
  exists kept,
    current_beams (filtered st).1 !! g = Some kept /\ beam ∉ kept.
Proof.
  intros Hq Hc Hb Hcap. pose proof (capped_beam_stops _ Hcap) as Hstop.
  split; [| split].
  - rewrite filter_queues. apply lookup_zip_with_Some. eauto.
  - apply list_elem_of_In, List.filter_In. by rewrite <- list_elem_of_In.
  - eexists. split.
    + rewrite filter_current, list_lookup_fmap, Hc. reflexivity.
    + intros [_ H]%list_elem_of_In%List.filter_In. by rewrite Hstop in H.
Qed.

(** *** The queue grows at its end *)

Lemma zip_with_app_prefix {A B} (f : B -> list A) (qs : list (list A))
    (cs : list B) :
  length qs = length cs ->
  Forall2 prefix qs (zip_with (fun q c => q ++ f c) qs cs).
Proof.
  revert cs. induction qs as [| q qs IH]; intros [| c cs] Hlen;
    simplify_eq/=; constructor; [by apply prefix_app_r | by apply IH].
Qed.

Lemma filter_queue_prefix n (st : State Aux Info Extra) :
  well_formed n st ->
  Forall2 prefix (beam_queues st) (beam_queues (filtered st).1).
Proof.
  intros [Hc Hq]. rewrite filter_queues. apply zip_with_app_prefix. congruence.
Qed.

Lemma Forall2_prefix_trans {A} (l1 l2 l3 : list (list A)) :
  Forall2 prefix l1 l2 -> Forall2 prefix l2 l3 -> Forall2 prefix l1 l3.
Proof.
  intros H12. revert l3. induction H12 as [| x y l1 l2 Hxy _ IH];
    intros l3 H23; inversion H23; subst; constructor; [by etrans | by apply IH].
Qed.

Lemma state_after_step n k (st s1 s2 : State Aux Info Extra) w :
  well_formed k st ->
  after n st w = Some s1 ->
  after (S n) st w = Some s2 ->
  Forall2 prefix (beam_queues s1) (beam_queues s2).
Proof.
  revert st w. induction n as [| n IH]; intros st w Hwf.
  - rewrite !(state_after_eq _ _ _ _ _ _ st).
    intros E1.
    assert (s1 = (filtered st).1) as -> by congruence.
    destruct (filtered st).2; [done |].
    destruct (one_round _ w) as [[st2 w2] |] eqn:Hr; [| done].
    rewrite state_after_eq. intros E2.
    assert (s2 = (filtered st2).1) as -> by congruence.
    pose proof (well_formed_round _ _ _ _ _ (well_formed_filter _ _ Hwf) Hr)
      as Hwf2.
    apply round_Some in Hr as (<- & _).
    by eapply filter_queue_prefix.
  - rewrite (state_after_eq _ _ _ _ _ (S n) st),
            (state_after_eq _ _ _ _ _ (S (S n)) st).
    destruct (filtered st).2; [done |].
    destruct (one_round _ w) as [[st2 w2] |] eqn:Hr; [| done].
    apply IH. eapply well_formed_round; [| exact Hr]. by apply well_formed_filter.
Qed.

Lemma state_after_earlier n (st s2 : State Aux Info Extra) w :
  after (S n) st w = Some s2 -> exists s1, after n st w = Some s1.
Proof.
  revert st w. induction n as [| n IH]; intros st w.
  - intros _. rewrite state_after_eq. eauto.
  - rewrite (state_after_eq _ _ _ _ _ (S (S n)) st),
            (state_after_eq _ _ _ _ _ (S n) st).
    destruct (filtered st).2; [done |].
    destruct (one_round _ w) as [[st2 w2] |]; [| done].
    apply IH.
Qed.

(** The queue seen after [n] rounds is a prefix of the queue seen after
    any [m >= n] rounds: a finished beam keeps its position, and later
    ones are put behind it. *)
Lemma queue_only_grows groups kw n m w (s1 s2 : State Aux Info Extra) :
  (n <= m)%nat ->
  after n (initial_state groups kw) w = Some s1 ->
  after m (initial_state groups kw) w = Some s2 ->
  Forall2 prefix (beam_queues s1) (beam_queues s2).
Proof.
  intros Hnm H1. revert s2. induction Hnm as [| m Hnm IH]; intros s2 H2.
  - rewrite H1 in H2. injection H2 as <-.
    apply Forall_Forall2_diag, Forall_true. done.
  - destruct (state_after_earlier _ _ _ _ H2) as [s Hs].
    eapply Forall2_prefix_trans; [by apply IH |].
    eapply state_after_step; [apply well_formed_initial | exact Hs | exact H2].
Qed.

(** *** The state behind the final element *)

Lemma loop_final_state fuel (st : State Aux Info Extra) w :
  outcome (loop fuel st w) = Exhausted ->
  exists st',
    after (rounds (loop fuel st w)) st w = Some st' /\
    last (yielded (loop fuel st w)) = Some (outputs false st').
Proof.
  revert st w. induction fuel as [| fuel IH]; intros st w;
    rewrite run_loop_eq; destruct (filtered st).2 eqn:Hfin;
    cbn [yielded rounds outcome]; try done.
  - intros _. exists (filtered st).1. by rewrite state_after_eq.
  - intros _. exists (filtered st).1. by rewrite state_after_eq.
  - rewrite state_after_eq, Hfin.
    destruct (one_round _ w) as [[st2 w2] |]; cbn [yielded rounds outcome];
      [| done].
    intros Hend. destruct (IH st2 w2 Hend) as (st' & Hafter & Hlast).
    exists st'. split; [done |]. by rewrite last_app, Hlast.
Qed.

(** *** The final output of one group *)

Lemma group_output_ranked (queue current : list (Beam Extra)) :
  group_output normalize_by_length alpha beam_width return_incomplete false
               queue current
  = Py.slice_to beam_width
                (Py.sorted_desc score_ (ranked return_incomplete queue current)).
Proof.
  unfold group_output. cbv zeta iota beta.
  rewrite sorted_desc_length, orb_false_r.
  destruct queue as [| beam queue]; cbn [length Nat.eqb andb ranked];
    [| done].
  by destruct return_incomplete.
Qed.

Lemma group_output_ties (queue current : list (Beam Extra)) q :
  List.filter (same_key score_ q)
              (group_output normalize_by_length alpha beam_width
                            return_incomplete false queue current)
  `prefix_of`
  List.filter (same_key score_ q) (ranked return_incomplete queue current).
Proof.
  rewrite group_output_ranked.
  rewrite <- (sorted_desc_stable score_ q (ranked return_incomplete queue current)).
  apply filter_prefix, slice_to_prefix.
Qed.

End QueueFacts.

(** ** The properties of [beam_search] *)

Section BeamSearch.

Context {W Aux Info Sel Extra : Type}.
Variable log_softmax : Row -> Row.
Variable fns : Callables W Aux Info Sel Extra.
Variables pad_token_id max_length : Z.
Variable normalize_by_length : bool.
Variable alpha : Z.
Variable beam_width : Z.
Variables return_incomplete yield_intermediate : bool.


(** C1, as amended.  With a beam width that is not negative, in every
    round each group has at most [beam_width] active beams once the
    selection has taken place, and every list of an element the
    generator yields, intermediate or final, has at most [beam_width]
    beams.  Nothing is said of the length of the finished queue. *)
Theorem width_bound :
  (0 <= beam_width)%Z ->
  (forall n (st st' : State Aux Info Extra) w,
      state_after log_softmax fns pad_token_id max_length beam_width
                  (S n) st w = Some st' ->
      Forall (fun current => (Z.of_nat (length current) <= beam_width)%Z)
             (current_beams st')) /\
  (forall initial kw fuel w out group,
      out ∈ yielded (beam_search log_softmax fns pad_token_id max_length
       normalize_by_length alpha beam_width return_incomplete
       yield_intermediate initial kw fuel w) -> group ∈ out ->
      (Z.of_nat (length group) <= beam_width)%Z).
Proof.
  intros Hbw.
  destruct (loop_width log_softmax fns pad_token_id max_length
              normalize_by_length alpha beam_width return_incomplete
              yield_intermediate Hbw) as [Hactive Hout].
  split; [exact Hactive |].
  intros initial kw fuel w out group. unfold beam_search.
  destruct (mapM initial_beams initial) as [groups |]; cbn [yielded].
  - apply Hout.
  - by intros ?%elem_of_nil.
Qed.

(** C3, as amended.  With a Candidate policy that keeps its contract (a
    child is longer than its parent), the loop runs at most [max_length]
    rounds: no call starts more rounds than that, and a consumer that
    waits for [max_length] rounds sees the generator end.  The reason is
    the cap: whatever the Stop policy answers, [filter_beams] puts every
    active beam of [max_length] or more tokens at the end of the
    finished queue of its group and drops it from the active beams. *)
Theorem terminates_within_max_length initial kw fuel w :
  grows fns ->
  (rounds (beam_search log_softmax fns pad_token_id max_length
       normalize_by_length alpha beam_width return_incomplete
       yield_intermediate initial kw fuel w) <= Z.to_nat max_length)%nat /\
  ((Z.to_nat max_length <= fuel)%nat ->
   outcome (beam_search log_softmax fns pad_token_id max_length
       normalize_by_length alpha beam_width return_incomplete
       yield_intermediate initial kw fuel w) <> OutOfFuel) /\
  (forall (st : State Aux Info Extra) g queue current beam,
      beam_queues st !! g = Some queue ->
      current_beams st !! g = Some current ->
      beam ∈ current ->
      (max_length <= Z.of_nat (beam_len beam))%Z ->
      beam_queues (filter_beams fns max_length beam_width st).1 !! g
      = Some (queue ++ List.filter (stops fns max_length) current) /\
      beam ∈ List.filter (stops fns max_length) current /\
      exists kept,
        current_beams (filter_beams fns max_length beam_width st).1 !! g
        = Some kept /\
        beam ∉ kept).
Proof.
  intros Hgrow.
  assert (Hloop :
    (rounds (beam_search log_softmax fns pad_token_id max_length
         normalize_by_length alpha beam_width return_incomplete
         yield_intermediate initial kw fuel w) <= Z.to_nat max_length)%nat /\
    ((Z.to_nat max_length <= fuel)%nat ->
     outcome (beam_search log_softmax fns pad_token_id max_length
         normalize_by_length alpha beam_width return_incomplete
         yield_intermediate initial kw fuel w) <> OutOfFuel)).
  { unfold beam_search.
    destruct (mapM initial_beams initial) as [groups |]; cbn [rounds outcome].
    - assert (Hmin : min_len 0 (initial_state (Info := Info) groups kw)).
      { intros current beam _ _. lia. }
      destruct (loop_bound log_softmax fns pad_token_id max_length
                  normalize_by_length alpha beam_width return_incomplete
                  yield_intermediate Hgrow fuel _ w 0%nat Hmin) as [Hr Ho].
      split; [lia |]. intros Hfuel. apply Ho. lia.
    - split; [lia | done]. }
  destruct Hloop as [Hr Ho]. split; [exact Hr |]. split; [exact Ho |].
  intros st g queue current beam. apply capped_beam_moves.
Qed.



(** C7.  With a deterministic decode function, Sample policy and
    Candidate policy, two calls on the same inputs yield the same
    elements and end in the same way, whatever the hidden state of the
    callables is when each call starts. *)
Theorem deterministic_runs initial kw fuel w1 w2 :
  deterministic_callables fns ->
  beam_search log_softmax fns pad_token_id max_length
       normalize_by_length alpha beam_width return_incomplete
       yield_intermediate initial kw fuel w1
  = beam_search log_softmax fns pad_token_id max_length
       normalize_by_length alpha beam_width return_incomplete
       yield_intermediate initial kw fuel w2.
Proof.
  intros Hdet. unfold beam_search.
  destruct (mapM initial_beams initial) as [groups |]; [| done].
  by apply loop_deterministic.
Qed.

(** C9, as amended.  A call that runs to its end yields exactly one
    element when [yield_intermediate] is false; when it is true it
    yields one element for every round and the final element after
    them. *)
Theorem yield_count initial kw fuel w :
  outcome (beam_search log_softmax fns pad_token_id max_length
       normalize_by_length alpha beam_width return_incomplete
       yield_intermediate initial kw fuel w) = Exhausted ->
  length (yielded (beam_search log_softmax fns pad_token_id max_length
       normalize_by_length alpha beam_width return_incomplete
       yield_intermediate initial kw fuel w))
  = if yield_intermediate
    then S (rounds (beam_search log_softmax fns pad_token_id max_length
       normalize_by_length alpha beam_width return_incomplete
       yield_intermediate initial kw fuel w))
    else 1%nat.
Proof.
  unfold beam_search.
  destruct (mapM initial_beams initial) as [groups |]; [| done].
  apply loop_yield_count.
Qed.

End BeamSearch.

Section Ignored.

Context {W Aux Info Sel Extra : Type}.

(** Whatever is passed as [score_fn] has no part in the result. *)
Lemma score_fn_ignored log_softmax (fns : Callables W Aux Info Sel Extra)
    (supplied : Beam Extra -> Q) pad_token_id max_length normalize_by_length
    alpha beam_width return_incomplete yield_intermediate initial kw fuel w :
  beam_search log_softmax (with_score_fn supplied fns) pad_token_id max_length
              normalize_by_length alpha beam_width return_incomplete
              yield_intermediate initial kw fuel w
  = beam_search log_softmax fns pad_token_id max_length
                normalize_by_length alpha beam_width return_incomplete
                yield_intermediate initial kw fuel w.
Proof. destruct fns. reflexivity. Qed.


End Ignored.

(** ** Worked runs *)

Module Runs.

Import Demo.

Local Abbreviation identity := (fun r : Row => r).

Lemma default_candidate_grows stop supplied :
  grows (callables stop default_beam_candidate_fn supplied).
Proof.
  intros beam token_id lp w child w' [= <- _].
  unfold beam_len. cbn [token_ids]. rewrite length_app. cbn [length]. lia.
Qed.

Lemma reject_all_rejects stop supplied bs :
  rejects_children (callables stop reject_all supplied) bs.
Proof. by intros beam token_id lp w result w' _ [= <- _]. Qed.

Lemma counting_deterministic : deterministic_callables counting.
Proof. by repeat split. Qed.

(** C1, counterexample.  One group that starts from the token [1], with
    [beam_width = 2] and [max_length = 3]: round 1 produces [1,0] and
    [1,1]; the first stops, the second is expanded in round 2 into
    [1,1,0] and [1,1,1], which both reach the cap.  The finished queue
    then holds three beams. *)
Lemma finished_queue_exceeds_width :
  let call := beam_search identity standard 0 3 false 1 2 false false
                          one_group tt in
  outcome (call 10%nat tt) = Exhausted /\
  exists st,
    state_after identity standard 0 3 2 2
                (initial_state [[b1]] tt) tt = Some st /\
    beam_queues st = [[b10; b110; b111]] /\
    ~ Forall (fun queue => (Z.of_nat (length queue) <= 2)%Z) (beam_queues st).
Proof.
  split; [reflexivity |]. eexists. split; [reflexivity |].
  split; [reflexivity |].
  intros H. apply Forall_cons_1 in H as [H _]. vm_compute in H. by apply H.
Qed.

Lemma width_bound_witness :
  (0 <= 2)%Z /\
  forall out group,
    out ∈ yielded (beam_search identity standard 0 3 false 1 2 false true
                               one_group tt 10 tt) ->
    group ∈ out -> (Z.of_nat (length group) <= 2)%Z.
Proof.
  assert (H : (0 <= 2)%Z) by lia.
  split; [exact H |]. intros out group.
  exact (proj2 (width_bound identity standard 0 3 false 1 2 false true H)
               one_group tt 10%nat tt out group).
Defined.

(** C2, at the failing input.  The caller passes a score that prefers
    the least likely beam; the final ranking still puts the beam of
    larger log-likelihood first. *)
Theorem supplied_score_not_used :
  yielded (beam_search identity
             (callables ends_with_zero default_beam_candidate_fn worst_first)
             0 3 false 1 2 false false one_group tt 10 tt)
  = [[[b10; b110]]] /\
  (worst_first b10 < worst_first b110)%Q.
Proof. split; reflexivity. Qed.

Lemma terminates_witness :
  grows standard /\
  (rounds (beam_search identity standard 0 3 false 1 2 false false
                       one_group tt 3 tt) <= Z.to_nat 3)%nat /\
  outcome (beam_search identity standard 0 3 false 1 2 false false
                       one_group tt 3 tt) <> OutOfFuel /\
  beam_queues (filter_beams standard 3 2
                            (initial_state (Info := unit) [[b111; b1]] tt)).1
    !! 0%nat
  = Some ([] ++ List.filter (stops standard 3) [b111; b1]) /\
  b111 ∈ List.filter (stops standard 3) [b111; b1].
Proof.
  pose proof (default_candidate_grows ends_with_zero (log_likelihood_score true 1))
    as Hgrow.
  split; [exact Hgrow |].
  destruct (terminates_within_max_length identity standard 0 3 false 1 2
              false false one_group tt 3%nat tt Hgrow) as (Hr & Ho & Hcap).
  split; [exact Hr |]. split; [apply Ho; cbn; lia |].
  destruct (Hcap (initial_state (Info := unit) [[b111; b1]] tt) 0%nat
                 [] [b111; b1] b111) as (Hq & Hb & _).
  - reflexivity.
  - reflexivity.
  - apply list_elem_of_here.
  - cbn. lia.
  - split; [exact Hq | exact Hb].
Defined.

(** C3, counterexample.  The cap alone does not end every call: with a
    Stop policy that never stops and a Candidate policy that hands back
    the parent unchanged, the one beam never reaches [max_length = 2]
    tokens, and a consumer that waits for five rounds has seen five
    rounds start, more than [max_length], without the generator
    ending. *)
Lemma keep_parent_outlasts_cap :
  let run := beam_search identity (callables never keep_parent worst_first)
                         0 2 false 1 2 false false one_group tt 5 tt in
  outcome run = OutOfFuel /\ rounds run = 5%nat /\
  (Z.to_nat 2 < rounds run)%nat.
Proof. split; [reflexivity |]. split; [reflexivity |]. vm_compute. lia. Qed.







Lemma deterministic_witness :
  deterministic_callables counting /\
  beam_search identity counting 0 3 false 1 2 false true one_group tt 10 0%nat
  = beam_search identity counting 0 3 false 1 2 false true one_group tt 10 7%nat.
Proof.
  split; [apply counting_deterministic |].
  apply (deterministic_runs identity counting 0 3 false 1 2 false true
           one_group tt 10%nat 0%nat 7%nat counting_deterministic).
Defined.

(** C9, counterexample.  With [yield_intermediate] set, a call of two
    rounds yields three elements. *)
Lemma two_rounds_three_elements :
  let run := beam_search identity standard 0 3 false 1 2 false true
                         one_group tt 10 tt in
  outcome run = Exhausted /\
  rounds run = 2%nat /\
  length (yielded run) = 3%nat /\
  length (yielded run) <> rounds run.
Proof. repeat split; try reflexivity. discriminate. Qed.

Lemma yield_count_witness :
  length (yielded (beam_search identity standard 0 3 false 1 2 false true
                               one_group tt 10 tt))
  = S (rounds (beam_search identity standard 0 3 false 1 2 false true
                           one_group tt 10 tt)).
Proof.
  apply (yield_count identity standard 0 3 false 1 2 false true
           one_group tt 10%nat tt).
  reflexivity.
Defined.

End Runs.

(** ** Continuation constraints *)

Module ConstraintFacts.

Import Constraints.

(** A new object gets a reference that is not in use. *)
Lemma init_spec ci input (h : gmap ref ContinuationConstraint) :
  h !! (init ci input h).1 = None /\
  (init ci input h).2 = <[(init ci input h).1 := fresh_object ci input]> h.
Proof.
  split; [| done]. cbn [init fst].
  apply not_elem_of_dom, is_fresh.
Qed.

(** [clone] leaves every existing object as it is. *)
Lemma clone_frame (h h' : gmap ref ContinuationConstraint) self copy :
  clone h self = Some (copy, h') ->
  copy <> self /\ (forall r, r <> copy -> h' !! r = h !! r).
Proof.
  unfold clone. destruct (h !! self) as [c |] eqn:Hself; [| done].
  cbn. intros [= <- <-].
  destruct (init_spec (cont_index c) (Some (prefix c)) h) as [Hnew _].
  cbn [init fst] in Hnew. split.
  - intros E. rewrite E in Hnew. congruence.
  - intros r Hr. by rewrite lookup_insert_ne.
Qed.

(** [next] changes the object it is called on and no other. *)
Lemma next_frame (h h' : gmap ref ContinuationConstraint) self index r :
  next h self index = Some h' -> r <> self -> h' !! r = h !! r.
Proof.
  unfold next. destruct (h !! self) as [c |]; [| done]. cbn.
  destruct (continuation_at (cont_index c) index); [| done]. cbn.
  intros [= <-] Hr. by rewrite lookup_insert_ne.
Qed.

Lemma next_all_frame idxs (h : gmap ref ContinuationConstraint) self r :
  r <> self -> next_all h self idxs !! r = h !! r.
Proof.
  intros Hr. revert h. unfold next_all.
  induction idxs as [| index idxs IH]; intros h; [done |].
  cbn [foldl]. rewrite IH.
  destruct (next h self index) as [h' |] eqn:Hn; [| done].
  by eapply next_frame.
Qed.

(** [get] reads the object it is called on and nothing else. *)
Lemma get_local (h1 h2 : gmap ref ContinuationConstraint) self :
  h1 !! self = h2 !! self -> get h1 self = get h2 self.
Proof. unfold get, is_match. by intros ->. Qed.

(** C8.  After [clone], no sequence of [next] calls on the copy changes
    what [get] answers on the original: the copy is an object of its
    own. *)
Theorem clone_independent (h h' : gmap ref ContinuationConstraint)
    self copy idxs :
  clone h self = Some (copy, h') ->
  get (next_all h' copy idxs) self = get h self.
Proof.
  intros [Hne Hframe]%clone_frame.
  apply get_local. rewrite next_all_frame; [| done].
  apply Hframe. done.
Qed.

Lemma clone_independent_witness :
  exists copy h',
    clone DemoIndex.store 0%nat = Some (copy, h') /\
    get (next_all h' copy [2; 7; 0]) 0%nat = Some ([2; 3], false) /\
    get (next_all h' copy [2; 7; 0]) copy = Some ([], false) /\
    get (next_all h' copy [2]) copy = Some ([], true).
Proof.
  destruct (clone DemoIndex.store 0%nat) as [[copy h'] |] eqn:E;
    [| vm_compute in E; discriminate].
  exists copy, h'. split; [reflexivity |].
  split.
  - rewrite (clone_independent DemoIndex.store h' 0%nat copy [2; 7; 0] E).
    vm_compute. reflexivity.
  - vm_compute in E. injection E as <- <-. split; vm_compute; reflexivity.
Defined.

End ConstraintFacts.

(** ** The loader configuration *)

Module ProcessorFacts.

Import Processor.

Lemma prefetch_factor_constant sort : prefetch_factor sort = sys_maxsize.
Proof. reflexivity. Qed.

Lemma inference_cfg_prefetch max_length inference affinity batch_size
    batch_max_tokens sort num_threads cfg :
  inference_cfg max_length inference affinity batch_size batch_max_tokens
                sort num_threads = Some cfg ->
  cfg !! "prefetch_factor"%string = Some (PInt sys_maxsize).
Proof.
  unfold inference_cfg. intros H.
  destruct (match batch_max_tokens with
            | Some _ => _
            | None => _
            end) as [[[batch_limit batch_limit_type] buffer_size] |];
    [| done].
  cbn in H.
  destruct (inference !! "tokenizer"%string) as [tokenizer |]; [| done].
  cbn in H. injection H as <-.
  do 5 (rewrite lookup_insert_ne by done). apply lookup_insert_eq.
Qed.

(** The caller's extra keyword arguments are merged last and win. *)
Lemma get_loader_kwargs_win max_length inference affinity batch_size
    batch_max_tokens sort num_threads kwargs loader v :
  get_loader max_length inference affinity batch_size batch_max_tokens
             sort num_threads kwargs = Some loader ->
  kwargs !! "prefetch_factor"%string = Some v ->
  loader !! "prefetch_factor"%string = Some v.
Proof.
  unfold get_loader.
  destruct (inference_cfg _ _ _ _ _ _ _) as [cfg |]; [| done].
  cbn. intros [= <-] Hk. by apply lookup_union_Some_l.
Qed.

(** C10.  Whatever [sort] is, the local [prefetch_factor] is
    [sys.maxsize] and that is the value the configuration literal is
    built with; it is also what the loader receives, unless the caller
    passes a [prefetch_factor] of their own among the extra keyword
    arguments. *)
Theorem prefetch_factor_is_maxsize max_length inference affinity batch_size
    batch_max_tokens sort num_threads cfg :
  inference_cfg max_length inference affinity batch_size batch_max_tokens
                sort num_threads = Some cfg ->
  prefetch_factor sort = sys_maxsize /\
  cfg !! "prefetch_factor"%string = Some (PInt sys_maxsize) /\
  forall kwargs loader,
    kwargs !! "prefetch_factor"%string = None ->
    get_loader max_length inference affinity batch_size batch_max_tokens
               sort num_threads kwargs = Some loader ->
    loader !! "prefetch_factor"%string = Some (PInt sys_maxsize).
Proof.
  intros Hcfg. split; [reflexivity |].
  pose proof (inference_cfg_prefetch _ _ _ _ _ _ _ _ Hcfg) as Hp.
  split; [exact Hp |].
  intros kwargs loader Hk. unfold get_loader. rewrite Hcfg. cbn.
  intros [= <-]. rewrite lookup_union_r; done.
Qed.

Lemma prefetch_factor_witness :
  (exists cfg,
      inference_cfg 512 demo_inference 8 16 None false None = Some cfg /\
      cfg !! "prefetch_factor"%string = Some (PInt (2 ^ 63 - 1)) /\
      cfg !! "sort"%string = Some (PBool false)) /\
  (exists cfg,
      inference_cfg 512 demo_inference 8 16 (Some 1000) true (Some 2) = Some cfg /\
      cfg !! "prefetch_factor"%string = Some (PInt (2 ^ 63 - 1)) /\
      cfg !! "buffer_size"%string = Some (PInt 2)).
Proof.
  split.
  - destruct (inference_cfg 512 demo_inference 8 16 None false None)
      as [cfg |] eqn:E; [| vm_compute in E; discriminate].
    exists cfg. split; [reflexivity |].
    destruct (prefetch_factor_is_maxsize _ _ _ _ _ _ _ _ E) as (_ & Hp & _).
    split; [exact Hp |].
    vm_compute in E. injection E as <-. vm_compute. reflexivity.
  - destruct (inference_cfg 512 demo_inference 8 16 (Some 1000) true (Some 2))
      as [cfg |] eqn:E; [| vm_compute in E; discriminate].
    exists cfg. split; [reflexivity |].
    destruct (prefetch_factor_is_maxsize _ _ _ _ _ _ _ _ E) as (_ & Hp & _).
    split; [exact Hp |].
    vm_compute in E. injection E as <-. vm_compute. reflexivity.
Defined.

End ProcessorFacts.
